(** * The voice-command matcher of the portfolio script

    A shallow embedding of the fuzzy command matcher of [script.js]
    ([PortfolioManager.processVoiceCommand], [findBestMatch],
    [calculateSimilarity] and [levenshteinDistance]) together with the
    properties its specification states, and of some of the functions
    around it: the theme ([setupDarkMode], [applyDarkMode],
    [toggleDarkMode]), [generateUserId], [retryOperation], the mobile menu
    ([toggleMobileMenu], [handleKeyboardShortcuts]), [throttle],
    [debounce] and [updateActiveNavigation].

    Conventions of the embedding.

    - A JavaScript string is a [string]; [s.length] is [String.length s] and
      [s.charAt(i)] is [charAt s i], which is [None] (the empty string of the
      source) when [i] is outside the string.
    - A JavaScript array is a list of slots, a slot being [None] when it is a
      hole.  A store past the end grows the array, leaving holes, as in the
      source language.  Reading a hole, or past the end, yields [undefined]
      in the source; here it is a fault ([None] in the [option] monad), as is
      indexing or calling [undefined].  A function of the model returns
      [Some v] exactly when the source returns [v] having read only table
      cells that had been written.
    - Table cells and lengths are natural numbers; the difference
      [longer.length - distance] is taken in [Z].  The one division of the
      source is modelled by the exact quotient, a rational in lowest terms,
      and scores are compared as rationals.  The source divides two integers
      in double precision: that rounding is monotone and leaves 0 and 1
      fixed, and it keeps apart any two distinct quotients of lengths below
      2^26, so for strings shorter than that the comparisons of the source
      are the comparisons made here. *)

From Stdlib Require Import QArith Qreduction Ascii String.
From stdpp Require Import base option list strings gmap.
Close Scope Q_scope.

(** ** Strings and arrays of the source language *)

Definition chars (s : string) : list ascii := list_ascii_of_string s.

Definition charAt (s : string) (i : nat) : option ascii := String.get i s.

Abbreviation array A := (list (option A)) (only parsing).

Definition arr_get {A} (a : array A) (k : nat) : option A := a !! k ≫= id.

Definition arr_set {A} (a : array A) (k : nat) (v : A) : array A :=
  if decide (k < length a) then <[k := Some v]> a
  else a ++ replicate (k - length a) None ++ [Some v].

(** [for_range lo n body s] is the loop
    [for (let i = lo; i < lo + n; i++) body] run from the state [s]. *)
Fixpoint for_range {St : Type} (lo n : nat) (body : nat → St → option St)
    (s : St) : option St :=
  match n with
  | 0 => Some s
  | S n' => s' ← body lo s; for_range (S lo) n' body s'
  end.

(** [forEach l body s] is [l.forEach(x => body)] run from the state [s]. *)
Fixpoint forEach {A St : Type} (l : list A) (body : A → St → option St)
    (s : St) : option St :=
  match l with
  | [] => Some s
  | x :: l' => s' ← body x s; forEach l' body s'
  end.

(** ** The dynamic-programming table *)

(** [matrix[i][j]] as an expression. *)
Definition cell (m : array (array nat)) (i j : nat) : option nat :=
  row ← arr_get m i; arr_get row j.

(** [matrix[i][j] = v]; the row object is updated in place. *)
Definition store (m : array (array nat)) (i j v : nat)
  : option (array (array nat)) :=
  row ← arr_get m i; Some (arr_set m i (arr_set row j v)).

Definition levenshteinDistance (str1 str2 : string) : option nat :=
  let matrix : array (array nat) := [] in
  matrix ← for_range 0 (S (String.length str2))
    (λ i matrix, Some (arr_set matrix i [Some i])) matrix;
  matrix ← for_range 0 (S (String.length str1))
    (λ j matrix, store matrix 0 j j) matrix;
  matrix ← for_range 1 (String.length str2)
    (λ i matrix,
       for_range 1 (String.length str1)
         (λ j matrix,
            if decide (charAt str2 (i - 1) = charAt str1 (j - 1)) then
              v ← cell matrix (i - 1) (j - 1);
              store matrix i j v
            else
              a ← cell matrix (i - 1) (j - 1);
              b ← cell matrix i (j - 1);
              c ← cell matrix (i - 1) j;
              store matrix i j (Nat.min (a + 1) (Nat.min (b + 1) (c + 1))))
         matrix)
    matrix;
  cell matrix (String.length str2) (String.length str1).

(** ** Similarity *)

(** Numbers: the quotient [a / b] and the comparison [x > y]. *)
Definition num_div (a b : Z) : Q := Qred (inject_Z a / inject_Z b).

Definition num_gt (x y : Q) : bool :=
  match (x ?= y)%Q with Gt => true | _ => false end.

Definition calculateSimilarity (str1 str2 : string) : option Q :=
  let longer :=
    if decide (String.length str2 < String.length str1) then str1 else str2 in
  let shorter :=
    if decide (String.length str2 < String.length str1) then str2 else str1 in
  if decide (String.length longer = 0) then Some 1%Q
  else
    distance ← levenshteinDistance longer shorter;
    Some (num_div (Z.of_nat (String.length longer) - Z.of_nat distance)
                  (Z.of_nat (String.length longer))).

(** ** Best match *)

Record match_result : Type := MatchResult {
  command : option string;   (* [None] is [null] *)
  score : Q
}.

Definition findBestMatch (input : string) (commands : list string)
  : option match_result :=
  let bestMatch := {| command := None; score := 0%Q |} in
  forEach commands
    (λ cmd bestMatch,
       sc ← calculateSimilarity input cmd;
       if num_gt sc bestMatch.(score) then
         Some {| command := Some cmd; score := sc |}
       else Some bestMatch)
    bestMatch.

(** ** The dispatcher *)

(** The actions bound to the phrases of [config.voiceCommands]. *)
Inductive action : Type :=
| scrollToSection (sectionId : string)
| downloadResume
| toggleDarkMode
| scrollToTop.

(** An object with string keys, as the list of its properties in the order
    [Object.keys] enumerates them. *)
Definition object (A : Type) : Type := list (string * A).

Definition Object_keys {A} (o : object A) : list string := o.*1.

Fixpoint get_property {A} (o : object A) (key : string) : option A :=
  match o with
  | [] => None
  | (k, v) :: o' => if decide (k = key) then Some v else get_property o' key
  end.

Definition voiceCommands : object action :=
  [ ("go to contact", scrollToSection "contact");
    ("show projects", scrollToSection "projects");
    ("about me", scrollToSection "about");
    ("skills", scrollToSection "skills");
    ("education", scrollToSection "education");
    ("download resume", downloadResume);
    ("go home", scrollToSection "home");
    ("toggle dark mode", toggleDarkMode);
    ("scroll to top", scrollToTop) ].

(** What a run of the dispatcher does, in order. *)
Inductive effect : Type :=
| showNotification (message type : string)
| call (a : action).

(** [processVoiceCommand] over the catalog [config.voiceCommands].  The
    result object of [findBestMatch] is always truthy, so the guard is the
    comparison alone.  The key used for [null] is the string ["null"], as
    property access and template literals convert it; calling a missing
    property is a fault. *)
Definition processVoiceCommand (config_voiceCommands : object action)
    (spoken : string) : option (list effect) :=
  let commands := Object_keys config_voiceCommands in
  bestMatch ← findBestMatch spoken commands;
  if num_gt bestMatch.(score) 0.6%Q then
    let key := default "null" bestMatch.(command) in
    f ← get_property config_voiceCommands key;
    Some [showNotification ("Executing: " +:+ key) "success"; call f]
  else
    Some [showNotification "Command not recognized" "warning"].

(** ** Reference notions for the statements *)

(** Edit distance by its recurrence, on character sequences. *)
Fixpoint lev (a b : list ascii) : nat :=
  match a with
  | [] => length b
  | x :: a' =>
      (fix lev_a (b : list ascii) : nat :=
         match b with
         | [] => length a
         | y :: b' =>
             if decide (x = y) then lev a' b'
             else S (Nat.min (lev a' b') (Nat.min (lev_a b') (lev a' b)))
         end) b
  end.

(** One single-character edit: an insertion, a deletion or a substitution,
    anywhere in the sequence. *)
Inductive edit : list ascii → list ascii → Prop :=
| edit_insert l c r : edit (l ++ r) (l ++ c :: r)
| edit_delete l c r : edit (l ++ c :: r) (l ++ r)
| edit_substitute l c c' r : c ≠ c' → edit (l ++ c :: r) (l ++ c' :: r).

(** [edits n s t]: [n] successive edits transform [s] into [t]. *)
Inductive edits : nat → list ascii → list ascii → Prop :=
| edits_nil s : edits 0 s s
| edits_cons n s t u : edit s t → edits n t u → edits (S n) s u.

(** [d] is the minimum number of edits that transform [s] into [t]. *)
Definition min_edits (s t : list ascii) (d : nat) : Prop :=
  edits d s t ∧ ∀ n, edits n s t → d ≤ n.

(** The table of [levenshteinDistance str1 str2] while it runs, for
    [s1 = chars str1] and [s2 = chars str2]: cell [(i, j)] holds the distance
    between the first [i] characters of [s2] and the first [j] of [s1]; row
    [i] has its first [w i] cells. *)
Definition prefix_dist (s1 s2 : list ascii) (i j : nat) : nat :=
  lev (reverse (take i s2)) (reverse (take j s1)).

(** The array without holes whose [k] slots hold [f 0], ..., [f (k - 1)]. *)
Definition tabulate {A} (f : nat → A) (k : nat) : array A :=
  (λ j, Some (f j)) <$> seq 0 k.

Definition row_upto (s1 s2 : list ascii) (i k : nat) : array nat :=
  tabulate (prefix_dist s1 s2 i) k.

Definition table (s1 s2 : list ascii) (w : nat → nat) : array (array nat) :=
  tabulate (λ i, row_upto s1 s2 i (w i)) (S (length s2)).

(** Rows before [i] are complete, row [i] has [j] cells, later rows one. *)
Definition fill (n1 i j : nat) : nat → nat :=
  λ i', if decide (i' < i) then S n1 else if decide (i' = i) then j else 1.

(** The score of two character sequences in closed form. *)
Definition similarity (a b : list ascii) : Q :=
  let n := Nat.max (length a) (length b) in
  if decide (n = 0) then 1%Q
  else num_div (Z.of_nat n - Z.of_nat (lev a b)) (Z.of_nat n).

(** What [findBestMatch] holds in [bestMatch] once it has gone through the
    candidates [seen]: nothing, when none of them scores above 0; otherwise
    the first of those with the highest score. *)
Definition best_so_far (input : string) (seen : list string)
    (r : match_result) : Prop :=
  let sim c := similarity (chars input) (chars c) in
  match r.(command) with
  | None => r.(score) = 0%Q ∧ ∀ c, c ∈ seen → (sim c <= 0)%Q
  | Some c =>
      ∃ before after,
        seen = before ++ c :: after ∧
        r.(score) = sim c ∧ (0 < sim c)%Q ∧
        (∀ c', c' ∈ before → (sim c' < sim c)%Q) ∧
        (∀ c', c' ∈ after → (sim c' <= sim c)%Q)
  end.

(** ** Browser storage and the theme

    [localStorage] is a finite map from keys to strings ([getItem] is the
    lookup, [null] when the key is missing; [setItem] is taken to succeed).
    Of the document the model keeps what the theme functions touch: the
    class list and the [data-theme] attribute of the root element, and the
    icon last written into the [#dark-mode-toggle] button, when the page has
    one.  The library [lucide] may be undefined; calling it then is a
    fault. *)

(** A string or [null] used as a condition. *)
Definition truthy (v : option string) : bool :=
  match v with
  | Some s => bool_decide (s ≠ "")
  | None => false
  end.

Module Theme.

Record page : Type := Page {
  isDarkMode : bool;                  (* [this.state.isDarkMode] *)
  localStorage : gmap string string;
  html_classList : gset string;
  html_data_theme : option string;
  darkModeToggle : option string;     (* [None]: no such element *)
  lucide_defined : bool
}.

Definition set_isDarkMode (b : bool) (p : page) : page :=
  Page b (localStorage p) (html_classList p) (html_data_theme p)
       (darkModeToggle p) (lucide_defined p).

Definition set_html (classList : gset string) (data_theme : string)
    (p : page) : page :=
  Page (isDarkMode p) (localStorage p) classList (Some data_theme)
       (darkModeToggle p) (lucide_defined p).

Definition setItem (key value : string) (p : page) : page :=
  Page (isDarkMode p) (<[key := value]> (localStorage p)) (html_classList p)
       (html_data_theme p) (darkModeToggle p) (lucide_defined p).

(** [if (darkModeToggle) { darkModeToggle.innerHTML = icon;
    lucide.createIcons(); }] *)
Definition set_toggle_icon (icon : string) (p : page) : option page :=
  match darkModeToggle p with
  | Some _ =>
      if lucide_defined p then
        Some (Page (isDarkMode p) (localStorage p) (html_classList p)
                   (html_data_theme p) (Some icon) (lucide_defined p))
      else None
  | None => Some p
  end.

Definition applyDarkMode (p : page) : option page :=
  p ← (if isDarkMode p then
         set_toggle_icon "sun"
           (set_html ({["dark"]} ∪ html_classList p) "dark" p)
       else
         set_toggle_icon "moon"
           (set_html (html_classList p ∖ {["dark"]}) "light" p));
  Some (setItem "theme" (if isDarkMode p then "dark" else "light") p).

(** [prefersDark] is what the media query
    [(prefers-color-scheme: dark)] answers. *)
Definition setupDarkMode (prefersDark : bool) (p : page) : option page :=
  let savedTheme := localStorage p !! "theme" in
  applyDarkMode
    (set_isDarkMode
       (bool_decide (savedTheme = Some "dark")
        || (negb (truthy savedTheme) && prefersDark)) p).

(** The listener [setupDarkMode] registers for changes of the media
    query; [matches] is [e.matches]. *)
Definition on_color_scheme_change (matches : bool) (p : page) : option page :=
  if negb (truthy (localStorage p !! "theme")) then
    applyDarkMode (set_isDarkMode matches p)
  else Some p.

Definition toggleDarkMode (p : page) : option (page * list effect) :=
  let p := set_isDarkMode (negb (isDarkMode p)) p in
  p ← applyDarkMode p;
  Some (p, [showNotification
              ("Switched to " +:+ (if isDarkMode p then "dark" else "light")
               +:+ " mode") "info"]).

End Theme.

(** [generateUserId]; [random_suffix] is what
    [Math.random().toString(36).substr(2, 9)] yields. *)
Definition generateUserId (random_suffix : string)
    (localStorage : gmap string string) : string * gmap string string :=
  let userId := localStorage !! "portfolio-user-id" in
  if negb (truthy userId) then
    let userId := "user_" +:+ random_suffix in
    (userId, <["portfolio-user-id" := userId]> localStorage)
  else (default "" userId, localStorage).

(** ** [retryOperation]

    What one call of [retryOperation(operation, maxRetries)] makes happen,
    in order: [setTimeout d], the callback of a timer set with the delay
    argument [d] (in milliseconds) starts; [operation], it calls
    [operation]; [handleError], it calls [handleError] (which is taken to
    return).  [throws k] tells whether the [k]-th call of [operation]
    throws.  The recursion of [retry] through the timers is bounded here by
    [fuel]. *)
Inductive retry_event : Type :=
| setTimeout (delay : nat)
| operation
| handleError (context : string).

Fixpoint retry (fuel : nat) (throws : nat → bool) (maxRetries retries : nat)
  : option (list retry_event) :=
  if decide (retries < maxRetries) then
    match fuel with
    | 0 => None
    | S fuel =>
        let retries := S retries in
        after ←
          (if throws retries then
             rest ← retry fuel throws maxRetries retries;
             Some (handleError "Retry operation" :: rest)
           else Some []);
        Some (setTimeout (2 ^ retries * 1000) :: operation :: after)
    end
  else Some [].

Definition retryOperation (throws : nat → bool) (maxRetries : nat)
  : option (list retry_event) :=
  retry maxRetries throws maxRetries 0.

(** The number of calls of [operation] in a trace, and its waits. *)
Fixpoint runs (trace : list retry_event) : nat :=
  match trace with
  | [] => 0
  | operation :: trace => S (runs trace)
  | _ :: trace => runs trace
  end.

Fixpoint delays (trace : list retry_event) : list nat :=
  match trace with
  | [] => []
  | setTimeout d :: trace => d :: delays trace
  | _ :: trace => delays trace
  end.

(** ** The mobile menu and the keyboard

    Of the document: the class list of [#mobile-menu] and the
    [aria-expanded] attribute of [#mobile-menu-button], each [None] when the
    page has no such element, and whether [this.announcer] is set. *)
Module Menu.

Record page : Type := Page {
  mobileMenu : option (gset string);
  mobileMenuButton : option (option string);
  announcer : bool
}.

Inductive effect : Type :=
| announce (message : string)          (* the announcer's text is set *)
| preventDefault
| showNotification (message type : string)
| toggleVoiceRecognition.

Definition announceToScreenReader (p : page) (message : string)
  : list effect :=
  if announcer p then [announce message] else [].

(** [classList.toggle(c)] *)
Definition classList_toggle (c : string) (classList : gset string)
  : gset string :=
  if decide (c ∈ classList) then classList ∖ {[c]} else {[c]} ∪ classList.

Definition toggleMobileMenu (p : page) : page * list effect :=
  match mobileMenu p, mobileMenuButton p with
  | Some classList, Some aria_expanded =>
      let isExpanded := bool_decide (aria_expanded = Some "true") in
      (Page (Some (classList_toggle "hidden" classList))
            (Some (Some (if negb isExpanded then "true" else "false")))
            (announcer p),
       if negb isExpanded then announceToScreenReader p "Mobile menu opened"
       else announceToScreenReader p "Mobile menu closed")
  | _, _ => (p, [])
  end.

Record keyboard_event : Type := KeyboardEvent {
  ctrlKey : bool;
  metaKey : bool;
  key : string;
  target_id : string
}.

Definition handleKeyboardShortcuts (event : keyboard_event) (p : page)
  : page * list effect :=
  let effects1 :=
    if (ctrlKey event || metaKey event) && bool_decide (key event = "k") then
      [preventDefault; showNotification "Search feature coming soon!" "info"]
    else [] in
  let '(p, effects2) :=
    if bool_decide (key event = "Escape") then
      match mobileMenu p with
      | Some classList =>
          if negb (bool_decide ("hidden" ∈ classList)) then toggleMobileMenu p
          else (p, [])
      | None => (p, [])
      end
    else (p, []) in
  let effects3 :=
    if (bool_decide (key event = " ") || bool_decide (key event = "Enter"))
       && bool_decide (target_id event = "voice-button") then
      [preventDefault; toggleVoiceRecognition]
    else [] in
  (p, effects1 ++ effects2 ++ effects3).

End Menu.

(** ** [throttle] and [debounce]

    The function [throttle(func, limit)] returns, as a machine: its variable
    [inThrottle] and the number of timers it has set that have not fired.
    An event is a call of the function with some arguments, or the firing of
    one of its timers, which needs a timer to be pending.  A call comes with
    [returns], which tells whether [func], if it is applied at this call,
    returns or throws: when it throws, the exception leaves the function
    before [inThrottle] is set and before the timer is.  The result lists
    the arguments [func] was applied to, each with that outcome. *)
Module Throttle.

Record closure : Type := Closure {
  inThrottle : bool;      (* [undefined] counts as [false] *)
  timers : nat
}.

Inductive event (A : Type) : Type :=
| call (args : A) (returns : bool)
| timer_fires.
Arguments call {A} args returns.
Arguments timer_fires {A}.

Definition step {A} (c : closure) (e : event A)
  : option (closure * list (A * bool)) :=
  match e with
  | call args returns =>
      if negb (inThrottle c) then
        if returns then
          Some (Closure true (S (timers c)), [(args, true)])
        else Some (c, [(args, false)])
      else Some (c, [])
  | timer_fires =>
      match timers c with
      | 0 => None
      | S n => Some (Closure false n, [])
      end
  end.

Fixpoint run {A} (c : closure) (events : list (event A))
  : option (closure * list (A * bool)) :=
  match events with
  | [] => Some (c, [])
  | e :: events =>
      '(c, applied) ← step c e;
      '(c, applied') ← run c events;
      Some (c, applied ++ applied')
  end.

Definition fresh : closure := Closure false 0.


Fixpoint called {A} (events : list (event A)) : list (A * bool) :=
  match events with
  | [] => []
  | call args returns :: events => (args, returns) :: called events
  | timer_fires :: events => called events
  end.


End Throttle.

(** The function [debounce(func, wait)] returns, as a machine: its variable
    [timeout], the timers that are pending, each with the arguments its
    callback holds, and the identifier the next timer gets. *)
Module Debounce.

Record closure (A : Type) : Type := Closure {
  timeout : option nat;          (* [None] is [undefined] *)
  pending : gmap nat A;
  next_id : nat
}.
Arguments Closure {A}.
Arguments timeout {A}.
Arguments pending {A}.
Arguments next_id {A}.

Inductive event (A : Type) : Type :=
| call (args : A)
| timer_fires (id : nat).
Arguments call {A} args.
Arguments timer_fires {A} id.

Definition clearTimeout {A} (id : option nat) (timers : gmap nat A)
  : gmap nat A :=
  match id with
  | Some id => delete id timers
  | None => timers
  end.

Definition step {A} (c : closure A) (e : event A)
  : option (closure A * list A) :=
  match e with
  | call args =>
      let timers := clearTimeout (timeout c) (pending c) in
      let id := next_id c in
      Some (Closure (Some id) (<[id := args]> timers) (S id), [])
  | timer_fires id =>
      args ← pending c !! id;
      let timers := delete id (pending c) in
      Some (Closure (timeout c) (clearTimeout (timeout c) timers) (next_id c),
            [args])
  end.

Fixpoint run {A} (c : closure A) (events : list (event A))
  : option (closure A * list A) :=
  match events with
  | [] => Some (c, [])
  | e :: events =>
      '(c, applied) ← step c e;
      '(c, applied') ← run c events;
      Some (c, applied ++ applied')
  end.

Definition fresh {A} : closure A := Closure None ∅ 0.

Fixpoint called {A} (events : list (event A)) : list A :=
  match events with
  | [] => []
  | call args :: events => args :: called events
  | timer_fires _ :: events => called events
  end.

(** The arguments of the last call among [events]. *)
Definition last_call {A} (events : list (event A)) : option A :=
  last (called events).

End Debounce.

(** ** [updateActiveNavigation]

    The sections are those of [section[id]] in document order, each with its
    [id] and [offsetTop]; the links are those of [.nav-link], each with its
    [href] attribute ([None] when it has none) and its class list. *)
Module Nav.

Record section : Type := Section_ {
  id : string;
  offsetTop : Z
}.

Record link : Type := Link {
  href : option string;
  classList : gset string
}.

(** The value of [current] after the first loop. *)
Definition current_section (pageYOffset : Q) (sections : list section)
  : string :=
  foldl
    (λ current section,
       let sectionTop := (offsetTop section - 100)%Z in
       if Qle_bool (inject_Z sectionTop) pageYOffset then id section
       else current)
    "" sections.

Definition updateActiveNavigation (pageYOffset : Q)
    (sections : list section) (navLinks : list link) : list link :=
  let current := current_section pageYOffset sections in
  (λ link,
     let classList := classList link ∖ {["active"]} in
     if bool_decide (href link = Some ("#" +:+ current)) then
       Link (href link) ({["active"]} ∪ classList)
     else Link (href link) classList) <$> navLinks.

End Nav.

(** ** The recurrence [lev] *)

Section lev_facts.
Implicit Types (a b s t u : list ascii) (x y z : ascii).

Lemma lev_nil_l b : lev [] b = length b.
Proof. reflexivity. Qed.

Lemma lev_nil_r a : lev a [] = length a.
Proof. by destruct a. Qed.

Lemma lev_cons x a y b :
  lev (x :: a) (y :: b) =
  if decide (x = y) then lev a b
  else S (Nat.min (lev a b) (Nat.min (lev (x :: a) b) (lev a (y :: b)))).
Proof. reflexivity. Qed.

Lemma lev_sym a b : lev a b = lev b a.
Proof.
  revert b. induction a as [|x a IHa]; intros b.
  - by rewrite lev_nil_l, lev_nil_r.
  - induction b as [|y b IHb]; [by rewrite lev_nil_l, lev_nil_r|].
    rewrite !lev_cons, IHb, (IHa b), (IHa (y :: b)).
    repeat case_decide; subst; try done; lia.
Qed.

Lemma lev_refl a : lev a a = 0.
Proof.
  induction a as [|x a IH]; [done|].
  rewrite lev_cons. by case_decide.
Qed.

Lemma lev_le_max a b : lev a b ≤ Nat.max (length a) (length b).
Proof.
  revert b. induction a as [|x a IHa]; intros b.
  - rewrite lev_nil_l. lia.
  - induction b as [|y b IHb]; [rewrite lev_nil_r; lia|].
    rewrite lev_cons. specialize (IHa b). simpl in *.
    case_decide; lia.
Qed.

(** Adding or removing one leading character changes the distance by at
    most one. *)
Lemma lev_step_aux n :
  ∀ a b, length a + length b ≤ n →
    (∀ y, lev a (y :: b) ≤ S (lev a b)) ∧ (∀ x, lev a b ≤ S (lev (x :: a) b)).
Proof.
  induction n as [|n IH]; intros a b Hn.
  - destruct a, b; simpl in Hn; try lia. split; intros; simpl; lia.
  - split.
    + intros y. destruct a as [|x a]; [simpl; lia|].
      rewrite lev_cons. case_decide; [|lia].
      apply (IH a b); simpl in Hn; lia.
    + intros x. destruct b as [|y b]; [rewrite !lev_nil_r; simpl; lia|].
      destruct (IH a b) as [H1 H2]; [simpl in Hn; lia|].
      specialize (H1 y). specialize (H2 x).
      rewrite lev_cons. case_decide; lia.
Qed.

Lemma lev_cons_r a y b : lev a (y :: b) ≤ S (lev a b).
Proof. by apply (lev_step_aux (length a + length b)). Qed.

Lemma lev_uncons_l x a b : lev a b ≤ S (lev (x :: a) b).
Proof. by apply (lev_step_aux (length a + length b)). Qed.

Lemma lev_cons_l x a b : lev (x :: a) b ≤ S (lev a b).
Proof. rewrite (lev_sym (x :: a)), (lev_sym a). apply lev_cons_r. Qed.

Lemma lev_subst_l x x' a u : lev (x :: a) u ≤ S (lev (x' :: a) u).
Proof.
  induction u as [|y u IH]; [rewrite !lev_nil_r; simpl; lia|].
  assert (lev (x :: a) (y :: u) ≤ S (lev a u)) as H0.
  { rewrite lev_cons. case_decide; lia. }
  pose proof (lev_cons_r (x :: a) y u).
  pose proof (lev_cons_l x a (y :: u)).
  rewrite (lev_cons x'). case_decide; lia.
Qed.

(** A change behind a common first character. *)
Lemma lev_under_cons z s t :
  (∀ u, lev s u ≤ S (lev t u)) → ∀ u, lev (z :: s) u ≤ S (lev (z :: t) u).
Proof.
  intros H u. induction u as [|y u IH].
  - rewrite !lev_nil_r. specialize (H []). rewrite !lev_nil_r in H. simpl; lia.
  - pose proof (H u). pose proof (H (y :: u)).
    rewrite !lev_cons. case_decide; lia.
Qed.

Lemma lev_edit s t : edit s t → ∀ u, lev s u ≤ S (lev t u).
Proof.
  intros [l c r|l c r|l c c' r _].
  - induction l as [|z l IH]; simpl.
    + intros u. apply lev_uncons_l.
    + by apply lev_under_cons.
  - induction l as [|z l IH]; simpl.
    + intros u. apply lev_cons_l.
    + by apply lev_under_cons.
  - induction l as [|z l IH]; simpl.
    + intros u. apply lev_subst_l.
    + by apply lev_under_cons.
Qed.

(** No sequence of edits is shorter than [lev]. *)
Lemma lev_le_edits n s t : edits n s t → lev s t ≤ n.
Proof.
  induction 1 as [s|n s t u Hst _ IH].
  - by rewrite lev_refl.
  - pose proof (lev_edit _ _ Hst u). lia.
Qed.

Lemma edit_under_cons z s t : edit s t → edit (z :: s) (z :: t).
Proof.
  intros [l c r|l c r|l c c' r Hc].
  - apply (edit_insert (z :: l)).
  - apply (edit_delete (z :: l)).
  - by apply (edit_substitute (z :: l)).
Qed.

Lemma edits_under_cons z n s t : edits n s t → edits n (z :: s) (z :: t).
Proof.
  induction 1; econstructor; eauto using edit_under_cons.
Qed.

Lemma edits_insert_all b : edits (length b) [] b.
Proof.
  induction b as [|y b IH]; [constructor|].
  simpl. apply edits_cons with [y].
  - apply (edit_insert [] y []).
  - by apply edits_under_cons.
Qed.

Lemma edits_delete_all a : edits (length a) a [].
Proof.
  induction a as [|x a IH]; [constructor|].
  simpl. apply edits_cons with a; [|done]. apply (edit_delete [] x a).
Qed.

(** [lev a b] edits do transform [a] into [b]. *)
Lemma edits_lev a b : edits (lev a b) a b.
Proof.
  revert b. induction a as [|x a IHa]; intros b.
  - rewrite lev_nil_l. apply edits_insert_all.
  - induction b as [|y b IHb].
    + rewrite lev_nil_r. apply edits_delete_all.
    + rewrite lev_cons. case_decide as Hxy.
      * subst y. apply edits_under_cons, IHa.
      * destruct (Nat.min_spec (lev a b)
          (Nat.min (lev (x :: a) b) (lev a (y :: b)))) as [[_ ->]|[_ ->]];
          [|destruct (Nat.min_spec (lev (x :: a) b) (lev a (y :: b)))
              as [[_ ->]|[_ ->]]].
        -- apply edits_cons with (y :: a).
           ++ by apply (edit_substitute [] x y a).
           ++ apply edits_under_cons, IHa.
        -- apply edits_cons with (y :: x :: a).
           ++ apply (edit_insert [] y (x :: a)).
           ++ by apply edits_under_cons.
        -- apply edits_cons with a.
           ++ apply (edit_delete [] x a).
           ++ apply IHa.
Qed.

Lemma lev_min_edits a b : min_edits a b (lev a b).
Proof. split; [apply edits_lev|intros n; apply lev_le_edits]. Qed.

Lemma edit_reverse s t : edit s t → edit (reverse s) (reverse t).
Proof.
  intros [l c r|l c r|l c c' r Hc];
    rewrite !reverse_app, ?reverse_cons, <-?(assoc_L (++)); simpl.
  - apply edit_insert.
  - apply edit_delete.
  - by apply edit_substitute.
Qed.

Lemma edits_reverse n s t : edits n s t → edits n (reverse s) (reverse t).
Proof.
  induction 1; econstructor; eauto using edit_reverse.
Qed.

Lemma min_edits_reverse s t d :
  min_edits (reverse s) (reverse t) d → min_edits s t d.
Proof.
  intros [H1 H2]. split.
  - apply edits_reverse in H1. by rewrite !reverse_involutive in H1.
  - intros n Hn. by apply H2, edits_reverse.
Qed.

End lev_facts.

(** ** Strings, arrays and loops *)

Lemma length_chars s : length (chars s) = String.length s.
Proof. unfold chars. induction s; simpl; congruence. Qed.

Lemma charAt_chars s i : charAt s i = chars s !! i.
Proof.
  unfold charAt, chars. revert i.
  induction s as [|c s IH]; intros [|i]; simpl; auto.
Qed.

Section arrays.
Context {A : Type}.
Implicit Types (f g : nat → A) (a : array A).

Lemma length_tabulate f k : length (tabulate f k) = k.
Proof. unfold tabulate. by rewrite length_fmap, length_seq. Qed.

Lemma lookup_tabulate f k j : j < k → tabulate f k !! j = Some (Some (f j)).
Proof.
  intros Hj. unfold tabulate. by rewrite list_lookup_fmap, lookup_seq_lt.
Qed.

Lemma arr_get_tabulate f k j : j < k → arr_get (tabulate f k) j = Some (f j).
Proof. intros Hj. unfold arr_get. by rewrite lookup_tabulate. Qed.

Lemma tabulate_S f k : tabulate f (S k) = tabulate f k ++ [Some (f k)].
Proof. unfold tabulate. by rewrite seq_S, fmap_app. Qed.

Lemma tabulate_ext f g k : (∀ j, j < k → f j = g j) → tabulate f k = tabulate g k.
Proof.
  intros H. unfold tabulate. apply list_fmap_ext.
  intros i x [-> Hx]%lookup_seq. simpl. by rewrite H.
Qed.

(** A store just past the last slot appends. *)
Lemma arr_set_end a v : arr_set a (length a) v = a ++ [Some v].
Proof.
  unfold arr_set. case_decide; [lia|]. by rewrite Nat.sub_diag.
Qed.

Lemma arr_set_tabulate_end f k : arr_set (tabulate f k) k (f k) = tabulate f (S k).
Proof.
  rewrite <-(length_tabulate f k) at 2. by rewrite arr_set_end, tabulate_S.
Qed.

(** A store inside the array replaces one slot. *)
Lemma arr_set_tabulate f g k i v :
  i < k → g i = v → (∀ j, j < k → j ≠ i → g j = f j) →
  arr_set (tabulate f k) i v = tabulate g k.
Proof.
  intros Hi Hv Hg. unfold arr_set. rewrite length_tabulate.
  case_decide; [|lia]. apply list_eq. intros j.
  destruct (decide (j < k)) as [Hj|Hj].
  - rewrite (lookup_tabulate g) by done.
    destruct (decide (i = j)) as [->|Hij].
    + rewrite list_lookup_insert_eq by (by rewrite length_tabulate). by rewrite Hv.
    + rewrite list_lookup_insert_ne, lookup_tabulate by done.
      rewrite Hg; [done..|]. congruence.
  - rewrite !(proj2 (lookup_ge_None _ _)); [done|..];
      rewrite ?length_insert, length_tabulate; lia.
Qed.

End arrays.

Lemma bind_Some_l {A B} (x : A) (f : A → option B) : Some x ≫= f = f x.
Proof. reflexivity. Qed.

(** A loop whose states are known in advance. *)
Lemma for_range_states {St} (σ : nat → St) lo n body :
  (∀ i, lo ≤ i < lo + n → body i (σ i) = Some (σ (S i))) →
  for_range lo n body (σ lo) = Some (σ (lo + n)).
Proof.
  revert lo. induction n as [|n IH]; intros lo H; simpl.
  - by rewrite Nat.add_0_r.
  - rewrite H by lia. simpl. rewrite IH.
    + f_equal. f_equal. lia.
    + intros i Hi. apply H. lia.
Qed.

(** ** The table of [levenshteinDistance] *)

Section table.
Variables s1 s2 : list ascii.
Implicit Types (w : nat → nat) (i j : nat).

Lemma prefix_dist_0_r i : i ≤ length s2 → prefix_dist s1 s2 i 0 = i.
Proof.
  intros Hi. unfold prefix_dist. rewrite take_0, lev_nil_r.
  rewrite length_reverse, length_take. lia.
Qed.

Lemma prefix_dist_0_l j : j ≤ length s1 → prefix_dist s1 s2 0 j = j.
Proof.
  intros Hj. unfold prefix_dist. rewrite take_0, lev_nil_l.
  rewrite length_reverse, length_take. lia.
Qed.

Lemma prefix_dist_S i j x y :
  s2 !! i = Some x → s1 !! j = Some y →
  prefix_dist s1 s2 (S i) (S j) =
  if decide (x = y) then prefix_dist s1 s2 i j
  else S (Nat.min (prefix_dist s1 s2 i j)
           (Nat.min (prefix_dist s1 s2 (S i) j) (prefix_dist s1 s2 i (S j)))).
Proof.
  intros Hx Hy. unfold prefix_dist.
  rewrite (take_S_r s2 i x), (take_S_r s1 j y), !reverse_snoc by done.
  apply lev_cons.
Qed.

Lemma prefix_dist_full :
  prefix_dist s1 s2 (length s2) (length s1) = lev (reverse s2) (reverse s1).
Proof. unfold prefix_dist. by rewrite !take_ge. Qed.

Lemma table_ext w w' :
  (∀ i, i ≤ length s2 → w i = w' i) → table s1 s2 w = table s1 s2 w'.
Proof.
  intros H. unfold table. apply tabulate_ext. intros i Hi.
  rewrite H; [done|lia].
Qed.

Lemma cell_table w i j :
  i ≤ length s2 → j < w i →
  cell (table s1 s2 w) i j = Some (prefix_dist s1 s2 i j).
Proof.
  intros Hi Hj. unfold cell, table.
  rewrite arr_get_tabulate by lia. simpl.
  unfold row_upto. by rewrite arr_get_tabulate.
Qed.

Lemma store_table w w' i j v :
  i ≤ length s2 →
  arr_set (row_upto s1 s2 i (w i)) j v = row_upto s1 s2 i (w' i) →
  (∀ i', i' ≤ length s2 → i' ≠ i → w' i' = w i') →
  store (table s1 s2 w) i j v = Some (table s1 s2 w').
Proof.
  intros Hi Hrow Hw. unfold store, table.
  rewrite arr_get_tabulate by lia. simpl. f_equal.
  apply arr_set_tabulate; [lia|done|].
  intros i' Hi' Hne. rewrite Hw; [done|lia|done].
Qed.

(** Writing the next cell of row [i]. *)
Lemma store_table_next w w' i j v :
  i ≤ length s2 → j = w i → v = prefix_dist s1 s2 i j → w' i = S j →
  (∀ i', i' ≤ length s2 → i' ≠ i → w' i' = w i') →
  store (table s1 s2 w) i j v = Some (table s1 s2 w').
Proof.
  intros Hi -> -> Hwi Hw. apply store_table; [done| |done].
  rewrite Hwi. unfold row_upto. apply arr_set_tabulate_end.
Qed.

(** Writing again a cell that holds its value. *)
Lemma store_table_again w w' i j v :
  i ≤ length s2 → j < w i → v = prefix_dist s1 s2 i j →
  (∀ i', i' ≤ length s2 → w' i' = w i') →
  store (table s1 s2 w) i j v = Some (table s1 s2 w').
Proof.
  intros Hi Hj -> Hw. apply store_table; [done| |by auto].
  rewrite Hw by done. unfold row_upto. by apply arr_set_tabulate.
Qed.

(** After the first loop: every row holds its first cell. *)
Lemma table_first_column k :
  k ≤ S (length s2) →
  tabulate (λ i, [Some i]) k = tabulate (λ i, row_upto s1 s2 i 1) k.
Proof.
  intros Hk. apply tabulate_ext. intros i Hi.
  unfold row_upto, tabulate. simpl. rewrite prefix_dist_0_r; [done|lia].
Qed.

End table.

(** ** The run of [levenshteinDistance] *)

Local Ltac solve_fill :=
  unfold fill; repeat case_decide; simpl; solve [done | lia].

Section run.
Variables str1 str2 : string.
Local Abbreviation s1 := (chars str1).
Local Abbreviation s2 := (chars str2).
Local Abbreviation n1 := (length (chars str1)).
Local Abbreviation n2 := (length (chars str2)).
Local Abbreviation tbl i j := (table s1 s2 (fill n1 i j)).

Lemma first_loop :
  for_range 0 (S n2) (λ i matrix, Some (arr_set matrix i [Some i])) [] =
  Some (tbl 0 1).
Proof.
  pose (σ := λ k, tabulate (λ i : nat, [Some i]) k).
  transitivity (Some (σ (0 + S n2))).
  - apply (for_range_states σ). intros i _. unfold σ.
    f_equal. apply (arr_set_tabulate_end (λ i : nat, [Some i])).
  - f_equal. unfold σ. change (0 + S n2) with (S n2).
    rewrite (table_first_column s1 s2) by lia.
    apply tabulate_ext. intros i Hi. solve_fill.
Qed.

Lemma second_loop :
  for_range 0 (S n1) (λ j matrix, store matrix 0 j j) (tbl 0 1) =
  Some (tbl 1 1).
Proof.
  pose (σ := λ j, tbl 0 (Nat.max 1 j)).
  transitivity (Some (σ (0 + S n1))).
  - apply (for_range_states σ). intros j Hj. unfold σ.
    pose proof (prefix_dist_0_l s1 s2 j).
    destruct j as [|j].
    + apply store_table_again; [lia|solve_fill|lia|].
      intros i' _. solve_fill.
    + apply store_table_next; [lia|solve_fill|lia|solve_fill|].
      intros i' _ Hi'. solve_fill.
  - f_equal. unfold σ. apply table_ext. intros i _. solve_fill.
Qed.

Lemma inner_loop i :
  1 ≤ i ≤ n2 →
  for_range 1 n1
    (λ j matrix,
       if decide (charAt str2 (i - 1) = charAt str1 (j - 1)) then
         v ← cell matrix (i - 1) (j - 1);
         store matrix i j v
       else
         a ← cell matrix (i - 1) (j - 1);
         b ← cell matrix i (j - 1);
         c ← cell matrix (i - 1) j;
         store matrix i j (Nat.min (a + 1) (Nat.min (b + 1) (c + 1))))
    (tbl i 1) =
  Some (tbl (S i) 1).
Proof.
  intros Hi. pose (σ := λ j, tbl i j).
  transitivity (Some (σ (1 + n1))).
  - apply (for_range_states σ). intros j Hj. unfold σ.
    destruct (lookup_lt_is_Some_2 s2 (i - 1)) as [x Hx]; [lia|].
    destruct (lookup_lt_is_Some_2 s1 (j - 1)) as [y Hy]; [lia|].
    pose proof (prefix_dist_S s1 s2 _ _ _ _ Hx Hy) as HS.
    replace (S (i - 1)) with i in HS by lia.
    replace (S (j - 1)) with j in HS by lia.
    assert (store (tbl i j) i j (prefix_dist s1 s2 i j) = Some (tbl i (S j)))
      as Hstore.
    { apply store_table_next; [lia|solve_fill|done|solve_fill|].
      intros i' _ Hi'. solve_fill. }
    rewrite !charAt_chars, Hx, Hy.
    rewrite !cell_table by solve_fill. simpl.
    rewrite <-Hstore, HS.
    repeat case_decide; simplify_eq; try done.
    f_equal. lia.
  - f_equal. unfold σ. apply table_ext. intros i' _.
    solve_fill.
Qed.

Lemma third_loop :
  for_range 1 n2
    (λ i matrix,
       for_range 1 n1
         (λ j matrix,
            if decide (charAt str2 (i - 1) = charAt str1 (j - 1)) then
              v ← cell matrix (i - 1) (j - 1);
              store matrix i j v
            else
              a ← cell matrix (i - 1) (j - 1);
              b ← cell matrix i (j - 1);
              c ← cell matrix (i - 1) j;
              store matrix i j (Nat.min (a + 1) (Nat.min (b + 1) (c + 1))))
         matrix)
    (tbl 1 1) =
  Some (tbl (S n2) 1).
Proof.
  pose (σ := λ i, tbl i 1).
  apply (for_range_states σ 1 n2). intros i Hi. unfold σ.
  apply inner_loop. lia.
Qed.

(** The function returns the distance between the two character
    sequences, and every read of the table finds a written cell. *)
Lemma levenshteinDistance_lev :
  levenshteinDistance str1 str2 = Some (lev s1 s2).
Proof.
  unfold levenshteinDistance. rewrite <-!length_chars.
  rewrite first_loop, bind_Some_l. cbv beta.
  rewrite second_loop, bind_Some_l. cbv beta.
  rewrite third_loop, bind_Some_l. cbv beta.
  rewrite cell_table; [|lia|solve_fill].
  rewrite prefix_dist_full. f_equal.
  rewrite lev_sym. destruct (lev_min_edits (reverse s1) (reverse s2)) as [H1 H2].
  apply Nat.le_antisymm.
  - apply H2, edits_reverse, edits_lev.
  - apply lev_le_edits. apply edits_reverse in H1.
    by rewrite !reverse_involutive in H1.
Qed.

End run.

(** ** Scores *)

Lemma num_div_bounds a b :
  (0 ≤ a ≤ b)%Z → (0 < b)%Z → (0 <= num_div a b)%Q ∧ (num_div a b <= 1)%Q.
Proof.
  intros Ha Hb. unfold num_div. destruct b as [|p|p]; try lia.
  rewrite Qred_correct, <-Qmake_Qdiv. unfold Qle; simpl. lia.
Qed.

Lemma num_div_diag a : (0 < a)%Z → num_div a a = 1%Q.
Proof.
  intros Ha. unfold num_div. change 1%Q with (Qred 1). apply Qred_complete.
  destruct a as [|p|p]; try lia.
  rewrite <-Qmake_Qdiv. unfold Qeq; simpl. lia.
Qed.

Lemma num_gt_true x y : num_gt x y = true ↔ (y < x)%Q.
Proof.
  unfold num_gt. rewrite Qgt_alt. destruct (x ?= y)%Q; split; congruence.
Qed.

Lemma num_gt_false x y : num_gt x y = false ↔ (x <= y)%Q.
Proof.
  unfold num_gt. rewrite Qle_alt. destruct (x ?= y)%Q; split; congruence.
Qed.

Lemma calculateSimilarity_similarity str1 str2 :
  calculateSimilarity str1 str2 = Some (similarity (chars str1) (chars str2)).
Proof.
  unfold calculateSimilarity, similarity. rewrite !length_chars.
  repeat case_decide; try lia; try done.
  - rewrite levenshteinDistance_lev, bind_Some_l.
    by rewrite Nat.max_l by lia.
  - rewrite levenshteinDistance_lev, bind_Some_l.
    by rewrite Nat.max_r, lev_sym by lia.
Qed.

Lemma similarity_sym a b : similarity a b = similarity b a.
Proof. unfold similarity. by rewrite Nat.max_comm, lev_sym. Qed.

Lemma similarity_bounds a b :
  (0 <= similarity a b)%Q ∧ (similarity a b <= 1)%Q.
Proof.
  unfold similarity. pose proof (lev_le_max a b).
  case_decide; [done|]. apply num_div_bounds; lia.
Qed.

Lemma similarity_refl a : similarity a a = 1%Q.
Proof.
  unfold similarity. rewrite lev_refl. case_decide; [done|].
  rewrite Z.sub_0_r. apply num_div_diag. lia.
Qed.

(** ** The scan of [findBestMatch] *)

Lemma best_so_far_score_nonneg input seen r :
  best_so_far input seen r → (0 <= r.(score))%Q.
Proof.
  unfold best_so_far. destruct (command r) as [c|].
  - intros (before & after & _ & -> & Hpos & _). by apply Qlt_le_weak.
  - intros [-> _]. apply Qle_refl.
Qed.

Lemma best_so_far_bound input seen r c :
  best_so_far input seen r → c ∈ seen →
  (similarity (chars input) (chars c) <= r.(score))%Q.
Proof.
  unfold best_so_far. destruct (command r) as [c0|].
  - intros (before & after & -> & -> & _ & Hb & Ha).
    rewrite elem_of_app, elem_of_cons.
    intros [?|[->|?]]; [by apply Qlt_le_weak, Hb|apply Qle_refl|by apply Ha].
  - intros [-> H]. apply H.
Qed.

(** One candidate more. *)
Lemma best_so_far_step input seen r cmd :
  best_so_far input seen r →
  ∃ r',
    (sc ← calculateSimilarity input cmd;
     if num_gt sc r.(score) then Some {| command := Some cmd; score := sc |}
     else Some r) = Some r' ∧
    best_so_far input (seen ++ [cmd]) r'.
Proof.
  intros Hr. rewrite calculateSimilarity_similarity, bind_Some_l.
  set (sc := similarity (chars input) (chars cmd)).
  destruct (num_gt sc (score r)) eqn:Hgt; (eexists; split; [done|]).
  - apply num_gt_true in Hgt. unfold best_so_far; simpl.
    exists seen, []. split_and!; [done..| | |].
    + eapply Qle_lt_trans; [|done]. by eapply best_so_far_score_nonneg.
    + intros c' Hc'. eapply Qle_lt_trans; [|done].
      by eapply best_so_far_bound.
    + by intros c' ?%elem_of_nil.
  - apply num_gt_false in Hgt. unfold best_so_far in *.
    destruct (command r) as [c|].
    + destruct Hr as (before & after & -> & Hsc & Hpos & Hb & Ha).
      exists before, (after ++ [cmd]). rewrite Hsc in Hgt.
      split_and!; [by rewrite <-(assoc_L (++))|done..|].
      intros c' [?|Hc']%elem_of_app; [by auto|].
      apply list_elem_of_singleton in Hc' as ->. done.
    + destruct Hr as [Hsc H]. rewrite Hsc in Hgt. split; [done|].
      intros c' [?|Hc']%elem_of_app; [by auto|].
      apply list_elem_of_singleton in Hc' as ->. done.
Qed.

Lemma forEach_best_so_far input seen rest r :
  best_so_far input seen r →
  ∃ r',
    forEach rest
      (λ cmd bestMatch,
         sc ← calculateSimilarity input cmd;
         if num_gt sc bestMatch.(score) then
           Some {| command := Some cmd; score := sc |}
         else Some bestMatch) r = Some r' ∧
    best_so_far input (seen ++ rest) r'.
Proof.
  revert seen r. induction rest as [|cmd rest IH]; intros seen r Hr.
  - exists r. by rewrite app_nil_r.
  - destruct (best_so_far_step input seen r cmd Hr) as (r1 & Hstep & Hr1).
    destruct (IH _ _ Hr1) as (r' & Hrest & Hr').
    exists r'. split.
    + simpl. by rewrite Hstep, bind_Some_l.
    + by rewrite <-(assoc_L (++)) in Hr'.
Qed.

Lemma findBestMatch_best_so_far input commands :
  ∃ r, findBestMatch input commands = Some r ∧ best_so_far input commands r.
Proof.
  apply (forEach_best_so_far input [] commands).
  split; [done|]. by intros c ?%elem_of_nil.
Qed.

Lemma similarity_le_0 a b : (similarity a b <= 0)%Q → similarity a b = 0%Q.
Proof.
  intros Hle. destruct (similarity_bounds a b) as [Hge _].
  pose proof (Qle_antisym _ _ Hle Hge) as Heq.
  revert Heq. unfold similarity. case_decide; [done|].
  unfold num_div. intros Heq. rewrite Qred_correct in Heq.
  change 0%Q with (Qred 0). by apply Qred_complete.
Qed.

Lemma elem_of_middle {A} (l1 l2 : list A) x : x ∈ l1 ++ x :: l2.
Proof. rewrite elem_of_app, elem_of_cons. auto. Qed.

Lemma get_property_is_Some {A} (o : object A) key :
  key ∈ Object_keys o → is_Some (get_property o key).
Proof.
  unfold Object_keys. induction o as [|[k v] o IH]; simpl.
  - by intros ?%elem_of_nil.
  - intros [->|?]%elem_of_cons; case_decide; eauto; done.
Qed.


(** ** The test cases of the specification *)

Example similarity_empty_abc : calculateSimilarity "" "abc" = Some 0%Q.
Proof. by vm_compute. Qed.

Example bestMatch_exact :
  findBestMatch "go to contact" ["go to contact"; "show projects"] =
  Some {| command := Some "go to contact"; score := 1 |}.
Proof. by vm_compute. Qed.

Example bestMatch_one_insertion :
  findBestMatch "go too contact" ["go to contact"; "show projects"; "about me"] =
  Some {| command := Some "go to contact"; score := 13 # 14 |}.
Proof. by vm_compute. Qed.

Example bestMatch_unrelated :
  ∃ r,
    findBestMatch "xyz completely unrelated" ["go to contact"; "show projects"]
      = Some r ∧ (r.(score) <= 0.6)%Q.
Proof. eexists. split; [by vm_compute|]. by vm_compute. Qed.

Example dispatch_recognized :
  processVoiceCommand voiceCommands "go too contact" =
  Some [showNotification "Executing: go to contact" "success";
        call (scrollToSection "contact")].
Proof. by vm_compute. Qed.

Example dispatch_unrecognized :
  processVoiceCommand voiceCommands "xyz completely unrelated" =
  Some [showNotification "Command not recognized" "warning"].
Proof. by vm_compute. Qed.

(** ** The properties of the specification *)

(** C2: [levenshteinDistance a b] is the minimum number of single-character
    insertions, deletions and substitutions that transform [a] into [b];
    between "kitten" and "sitting" it is 3, and their similarity is
    (7 - 3) / 7. *)
Theorem levenshteinDistance_min_edits :
  (∀ a b : string,
     ∃ d, levenshteinDistance a b = Some d ∧ min_edits (chars a) (chars b) d) ∧
  levenshteinDistance "kitten" "sitting" = Some 3 ∧
  calculateSimilarity "kitten" "sitting" = Some (4 # 7)%Q.
Proof.
  split; [|by vm_compute].
  intros a b. exists (lev (chars a) (chars b)). split.
  - apply levenshteinDistance_lev.
  - apply lev_min_edits.
Qed.

(** C3: the score does not depend on the order of the two strings, equal
    lengths included. *)
Theorem calculateSimilarity_sym (a b : string) :
  calculateSimilarity a b = calculateSimilarity b a.
Proof.
  rewrite !calculateSimilarity_similarity. f_equal. apply similarity_sym.
Qed.

(** C4: the score lies between 0 and 1, the distance being at most the
    length of the longer string. *)
Theorem calculateSimilarity_range (a b : string) :
  ∃ d q,
    levenshteinDistance a b = Some d ∧
    d ≤ Nat.max (String.length a) (String.length b) ∧
    calculateSimilarity a b = Some q ∧ (0 <= q)%Q ∧ (q <= 1)%Q.
Proof.
  exists (lev (chars a) (chars b)), (similarity (chars a) (chars b)).
  split_and!.
  - apply levenshteinDistance_lev.
  - rewrite <-!length_chars. apply lev_le_max.
  - apply calculateSimilarity_similarity.
  - apply similarity_bounds.
  - apply similarity_bounds.
Qed.

(** C7: with an empty catalog the result has no phrase and the score 0. *)
Theorem findBestMatch_empty (input : string) :
  findBestMatch input [] = Some {| command := None; score := 0 |}.
Proof. reflexivity. Qed.

(** C8: a string has the score 1 with itself; so has the empty string. *)
Theorem calculateSimilarity_refl :
  (∀ s : string, calculateSimilarity s s = Some 1%Q) ∧
  calculateSimilarity "" "" = Some 1%Q.
Proof.
  split; [|done]. intros s.
  rewrite calculateSimilarity_similarity. f_equal. apply similarity_refl.
Qed.

(** C9: the three functions return a value on all strings and catalogs;
    no read of the table misses a written cell. *)
Theorem matcher_total (a b input : string) (commands : list string) :
  is_Some (levenshteinDistance a b) ∧
  is_Some (calculateSimilarity a b) ∧
  is_Some (findBestMatch input commands).
Proof.
  split_and!.
  - rewrite levenshteinDistance_lev. eauto.
  - rewrite calculateSimilarity_similarity. eauto.
  - destruct (findBestMatch_best_so_far input commands) as (r & -> & _). eauto.
Qed.

(** C10: the returned score is at least 0 and at least the score of every
    candidate; a returned phrase is a candidate, and the returned score is
    its score. *)
Theorem findBestMatch_score (input : string) (commands : list string) :
  ∃ r,
    findBestMatch input commands = Some r ∧
    (0 <= r.(score))%Q ∧
    (∀ c, c ∈ commands →
       ∃ q, calculateSimilarity input c = Some q ∧ (q <= r.(score))%Q) ∧
    (∀ c, r.(command) = Some c →
       c ∈ commands ∧ calculateSimilarity input c = Some r.(score)).
Proof.
  destruct (findBestMatch_best_so_far input commands) as (r & Hr & Hbest).
  exists r. split_and!; [done|by eapply best_so_far_score_nonneg|..].
  - intros c Hc. eexists. split; [apply calculateSimilarity_similarity|].
    by eapply best_so_far_bound.
  - intros c Hc. unfold best_so_far in Hbest. rewrite Hc in Hbest.
    destruct Hbest as (before & after & -> & -> & _).
    split; [apply elem_of_middle|apply calculateSimilarity_similarity].
Qed.



(** C1, as the code has it: the result has a phrase exactly when some
    candidate scores above 0; the phrase is then a candidate with the
    highest score, and the returned score is that score.  Otherwise (the
    catalog is empty or every candidate scores 0) the result has no phrase
    and the score 0. *)
Theorem findBestMatch_result (input : string) (commands : list string) :
  ∃ r,
    findBestMatch input commands = Some r ∧
    match r.(command) with
    | Some c =>
        c ∈ commands ∧
        calculateSimilarity input c = Some r.(score) ∧
        (0 < r.(score))%Q ∧
        ∀ c', c' ∈ commands →
          ∃ q, calculateSimilarity input c' = Some q ∧ (q <= r.(score))%Q
    | None =>
        r.(score) = 0%Q ∧
        ∀ c', c' ∈ commands → calculateSimilarity input c' = Some 0%Q
    end.
Proof.
  destruct (findBestMatch_best_so_far input commands) as (r & Hr & Hbest).
  exists r. split; [done|].
  pose proof (λ c, best_so_far_bound input commands r c Hbest) as Hbound.
  unfold best_so_far in Hbest. destruct r as [[c|] sc]; simpl in *.
  - destruct Hbest as (before & after & Hc & -> & Hpos & _). split_and!.
    + rewrite Hc. apply elem_of_middle.
    + apply calculateSimilarity_similarity.
    + done.
    + intros c' Hc'. eexists. split; [apply calculateSimilarity_similarity|].
      by apply Hbound.
  - destruct Hbest as [-> H0]. split; [done|]. intros c' Hc'.
    rewrite calculateSimilarity_similarity. f_equal.
    apply similarity_le_0. by apply H0.
Qed.

(** C1, as stated, fails: no phrase of the catalog of the script shares a
    character with "xx", so every candidate scores 0 and the result has no
    phrase although the catalog is not empty. *)
Lemma findBestMatch_phrase_absent :
  Object_keys voiceCommands ≠ [] ∧
  findBestMatch "xx" (Object_keys voiceCommands) =
    Some {| command := None; score := 0 |} ∧
  ¬ ∃ r c,
      findBestMatch "xx" (Object_keys voiceCommands) = Some r ∧
      r.(command) = Some c.
Proof.
  assert (findBestMatch "xx" (Object_keys voiceCommands) =
          Some {| command := None; score := 0 |}) as H by (by vm_compute).
  split_and!; [done..|].
  intros (r & c & Hr & Hc). rewrite H in Hr.
  injection Hr as <-. discriminate Hc.
Qed.

(** C6: the dispatcher runs the action bound to the winning phrase exactly
    when the best score is above 0.6; otherwise it calls no action and
    reports the command as not recognized. *)
Theorem processVoiceCommand_threshold (catalog : object action)
    (spoken : string) :
  ∃ r,
    findBestMatch spoken (Object_keys catalog) = Some r ∧
    ((0.6 < r.(score))%Q →
       ∃ phrase f,
         r.(command) = Some phrase ∧
         get_property catalog phrase = Some f ∧
         processVoiceCommand catalog spoken =
           Some [showNotification ("Executing: " +:+ phrase) "success";
                 call f]) ∧
    ((r.(score) <= 0.6)%Q →
       processVoiceCommand catalog spoken =
         Some [showNotification "Command not recognized" "warning"]).
Proof.
  destruct (findBestMatch_best_so_far spoken (Object_keys catalog))
    as (r & Hr & Hbest).
  exists r. split; [done|]. unfold processVoiceCommand.
  rewrite Hr, bind_Some_l. split.
  - intros Hgt. apply num_gt_true in Hgt as Hgt'. rewrite Hgt'.
    unfold best_so_far in Hbest. destruct (command r) as [phrase|].
    + destruct Hbest as (before & after & Hkeys & _).
      destruct (get_property_is_Some catalog phrase) as [f Hf].
      { rewrite Hkeys. apply elem_of_middle. }
      exists phrase, f. simpl. by rewrite Hf.
    + destruct Hbest as [Hsc _]. rewrite Hsc in Hgt. done.
  - intros Hle. apply num_gt_false in Hle. by rewrite Hle.
Qed.

(** ** Further properties of the matcher *)

Lemma chars_inj a b : chars a = chars b → a = b.
Proof.
  unfold chars. intros H.
  rewrite <-(string_of_list_ascii_of_string a), H.
  apply string_of_list_ascii_of_string.
Qed.

Lemma lev_eq_0 a b : lev a b = 0 → a = b.
Proof.
  revert b. induction a as [|x a IH]; intros [|y b]; try done.
  rewrite lev_cons. case_decide as Hxy; [|done]. intros H0. f_equal; auto.
Qed.

Lemma edits_trans n m s t u : edits n s t → edits m t u → edits (n + m) s u.
Proof.
  induction 1 as [s|n s s' t Hs _ IH]; intros Hm; simpl; [done|].
  eapply edits_cons; eauto.
Qed.

Lemma lev_triangle a b c : lev a c ≤ lev a b + lev b c.
Proof.
  apply lev_le_edits. eapply edits_trans; apply edits_lev.
Qed.

Lemma edit_length s t : edit s t → length s ≤ S (length t).
Proof.
  intros [l c r|l c r|l c c' r _]; rewrite !length_app; simpl; lia.
Qed.

Lemma edits_length n s t : edits n s t → length s ≤ length t + n.
Proof.
  induction 1 as [s|n s t u Hst _ IH]; [lia|].
  apply edit_length in Hst. lia.
Qed.

Lemma lev_length_diff a b : length a - length b ≤ lev a b.
Proof. pose proof (edits_length _ _ _ (edits_lev a b)). lia. Qed.

Lemma similarity_canon a b : Qred (similarity a b) = similarity a b.
Proof.
  unfold similarity. case_decide; [done|].
  unfold num_div. apply Qred_complete, Qred_correct.
Qed.

Lemma similarity_eq_of_Qeq a b c d :
  (similarity a b == similarity c d)%Q → similarity a b = similarity c d.
Proof.
  intros H%Qred_complete. by rewrite !similarity_canon in H.
Qed.

Lemma similarity_ge_1 a b : (1 <= similarity a b)%Q → a = b.
Proof.
  unfold similarity. case_decide as Hn.
  - intros _. destruct a, b; simpl in Hn; try lia. done.
  - unfold num_div. rewrite Qred_correct.
    destruct (Z.of_nat (Nat.max (length a) (length b))) as [|p|p] eqn:Hp;
      try lia.
    rewrite <-Qmake_Qdiv. unfold Qle; simpl. intros H.
    apply lev_eq_0. lia.
Qed.

Lemma similarity_threshold a b :
  (0.6 < similarity a b)%Q ↔
  Nat.max (length a) (length b) = 0 ∨
  5 * lev a b < 2 * Nat.max (length a) (length b).
Proof.
  unfold similarity. case_decide as Hn.
  - split; [by left|done].
  - unfold num_div. rewrite Qred_correct.
    destruct (Z.of_nat (Nat.max (length a) (length b))) as [|p|p] eqn:Hp;
      try lia.
    rewrite <-Qmake_Qdiv. unfold Qlt; simpl. lia.
Qed.

(** X1: the distance does not depend on the order of the two strings. *)
Theorem levenshteinDistance_sym (a b : string) :
  levenshteinDistance a b = levenshteinDistance b a.
Proof. by rewrite !levenshteinDistance_lev, lev_sym. Qed.

(** X2: the distance is 0 exactly between equal strings. *)
Theorem levenshteinDistance_zero_iff (a b : string) :
  levenshteinDistance a b = Some 0 ↔ a = b.
Proof.
  rewrite levenshteinDistance_lev. split.
  - intros [= H]. by apply chars_inj, lev_eq_0.
  - intros ->. by rewrite lev_refl.
Qed.

(** X3: the distance satisfies the triangle inequality. *)
Theorem levenshteinDistance_triangle (a b c : string) :
  ∃ dab dbc dac,
    levenshteinDistance a b = Some dab ∧
    levenshteinDistance b c = Some dbc ∧
    levenshteinDistance a c = Some dac ∧
    dac ≤ dab + dbc.
Proof.
  do 3 eexists. split_and!; [apply levenshteinDistance_lev..|].
  apply lev_triangle.
Qed.

(** X4: the distance is at least the difference of the two lengths. *)
Theorem levenshteinDistance_length_diff (a b : string) :
  ∃ d,
    levenshteinDistance a b = Some d ∧
    String.length a - String.length b ≤ d ∧
    String.length b - String.length a ≤ d.
Proof.
  eexists. split; [apply levenshteinDistance_lev|].
  rewrite <-!length_chars. split; [apply lev_length_diff|].
  rewrite lev_sym. apply lev_length_diff.
Qed.

(** X5: the score is 1 exactly for equal strings. *)
Theorem calculateSimilarity_one_iff (a b : string) :
  calculateSimilarity a b = Some 1%Q ↔ a = b.
Proof.
  rewrite calculateSimilarity_similarity. split.
  - intros [= H]. apply chars_inj, similarity_ge_1. rewrite H. apply Qle_refl.
  - intros ->. by rewrite similarity_refl.
Qed.

(** X6: the score is above 0.6 exactly when five times the distance is less
    than twice the length of the longer string (or both strings are
    empty). *)
Theorem calculateSimilarity_threshold (a b : string) :
  ∃ d q,
    levenshteinDistance a b = Some d ∧
    calculateSimilarity a b = Some q ∧
    ((0.6 < q)%Q ↔
     Nat.max (String.length a) (String.length b) = 0 ∨
     5 * d < 2 * Nat.max (String.length a) (String.length b)).
Proof.
  do 2 eexists.
  split_and!; [apply levenshteinDistance_lev|apply calculateSimilarity_similarity|].
  rewrite <-!length_chars. apply similarity_threshold.
Qed.

Lemma best_so_far_score_le_1 input seen r :
  best_so_far input seen r → (r.(score) <= 1)%Q.
Proof.
  unfold best_so_far. destruct (command r) as [c|].
  - intros (before & after & _ & -> & _). apply similarity_bounds.
  - by intros [-> _].
Qed.

Lemma findBestMatch_member input commands :
  input ∈ commands →
  findBestMatch input commands = Some {| command := Some input; score := 1 |}.
Proof.
  intros Hin.
  destruct (findBestMatch_best_so_far input commands) as (r & -> & Hbest).
  pose proof (best_so_far_bound _ _ _ _ Hbest Hin) as Hge.
  rewrite similarity_refl in Hge.
  unfold best_so_far in Hbest. destruct r as [[c|] sc]; simpl in *.
  - destruct Hbest as (before & after & _ & -> & _).
    apply similarity_ge_1, chars_inj in Hge as <-.
    by rewrite similarity_refl.
  - destruct Hbest as [-> _]. done.
Qed.

Lemma get_property_key {A} (o : object A) key v :
  get_property o key = Some v → key ∈ Object_keys o.
Proof.
  unfold Object_keys. induction o as [|[k w] o IH]; simpl; [done|].
  case_decide as Hk.
  - intros _. subst k. apply elem_of_cons. by left.
  - intros H. apply elem_of_cons. right. by apply IH.
Qed.

(** X7: when the input is itself a candidate, it is the result, with the
    score 1. *)
Theorem findBestMatch_exact (input : string) (commands : list string) :
  input ∈ commands →
  findBestMatch input commands = Some {| command := Some input; score := 1 |}.
Proof. apply findBestMatch_member. Qed.

Lemma findBestMatch_exact_witness :
  "skills" ∈ Object_keys voiceCommands ∧
  findBestMatch "skills" (Object_keys voiceCommands) =
    Some {| command := Some "skills"; score := 1 |}.
Proof.
  assert ("skills" ∈ Object_keys voiceCommands) as H.
  { apply (list_elem_of_lookup_2 _ 3). reflexivity. }
  split; [exact H|]. exact (findBestMatch_exact _ _ H).
Defined.

(** X8: an utterance that is a phrase of the catalog runs the action bound
    to that phrase. *)
Theorem processVoiceCommand_exact (catalog : object action)
    (phrase : string) (f : action) :
  get_property catalog phrase = Some f →
  processVoiceCommand catalog phrase =
    Some [showNotification ("Executing: " +:+ phrase) "success"; call f].
Proof.
  intros Hf. unfold processVoiceCommand.
  rewrite findBestMatch_member by (by eapply get_property_key).
  rewrite bind_Some_l. simpl. by rewrite Hf.
Qed.

Lemma processVoiceCommand_exact_witness :
  get_property voiceCommands "go home" = Some (scrollToSection "home") ∧
  processVoiceCommand voiceCommands "go home" =
    Some [showNotification ("Executing: " +:+ "go home") "success";
          call (scrollToSection "home")].
Proof.
  split; [reflexivity|].
  apply (processVoiceCommand_exact voiceCommands "go home"). reflexivity.
Defined.

(** X9: the returned score does not depend on the order of the catalog
    (the returned phrase may, between candidates of the same score). *)
Theorem findBestMatch_score_permutation (input : string)
    (commands commands' : list string) :
  commands ≡ₚ commands' →
  score <$> findBestMatch input commands =
  score <$> findBestMatch input commands'.
Proof.
  intros Hperm.
  destruct (findBestMatch_best_so_far input commands) as (r & -> & Hr).
  destruct (findBestMatch_best_so_far input commands') as (r' & -> & Hr').
  simpl. f_equal.
  pose proof (λ c, best_so_far_bound input commands r c Hr) as Hb.
  pose proof (λ c, best_so_far_bound input commands' r' c Hr') as Hb'.
  unfold best_so_far in Hr, Hr'.
  destruct r as [[c|] sc], r' as [[c'|] sc']; simpl in *.
  - destruct Hr as (l1 & l2 & Hl & -> & _).
    destruct Hr' as (l1' & l2' & Hl' & -> & _).
    apply similarity_eq_of_Qeq, Qle_antisym.
    + apply Hb'. rewrite <-Hperm, Hl. apply elem_of_middle.
    + apply Hb. rewrite Hperm, Hl'. apply elem_of_middle.
  - destruct Hr as (l1 & l2 & Hl & -> & Hpos & _).
    destruct Hr' as [-> _]. exfalso.
    apply (Qlt_not_le _ _ Hpos), Hb'.
    rewrite <-Hperm, Hl. apply elem_of_middle.
  - destruct Hr' as (l1' & l2' & Hl' & -> & Hpos & _).
    destruct Hr as [-> _]. exfalso.
    apply (Qlt_not_le _ _ Hpos), Hb.
    rewrite Hperm, Hl'. apply elem_of_middle.
  - destruct Hr as [-> _], Hr' as [-> _]. done.
Qed.

Lemma findBestMatch_score_permutation_witness :
  ["about me"; "skills"] ≡ₚ ["skills"; "about me"] ∧
  score <$> findBestMatch "skils" ["about me"; "skills"] =
  score <$> findBestMatch "skils" ["skills"; "about me"].
Proof.
  assert (["about me"; "skills"] ≡ₚ ["skills"; "about me"]) as H
    by apply Permutation_swap.
  split; [exact H|]. exact (findBestMatch_score_permutation _ _ _ H).
Defined.

(** X10: the dispatcher calls an action exactly when some phrase of the
    catalog is close to the utterance: five times their distance is less
    than twice the length of the longer of the two (or both are empty).
    ([call f] says that the action is called; what the action then does,
    and whether it returns, is not part of the statement.) *)
Theorem processVoiceCommand_recognizes (catalog : object action)
    (spoken : string) :
  ∃ effects,
    processVoiceCommand catalog spoken = Some effects ∧
    ((∃ f, call f ∈ effects) ↔
     ∃ phrase d,
       phrase ∈ Object_keys catalog ∧
       levenshteinDistance spoken phrase = Some d ∧
       (Nat.max (String.length spoken) (String.length phrase) = 0 ∨
        5 * d < 2 * Nat.max (String.length spoken) (String.length phrase))).
Proof.
  destruct (findBestMatch_best_so_far spoken (Object_keys catalog))
    as (r & Hr & Hbest).
  pose proof (λ c, best_so_far_bound _ _ r c Hbest) as Hbound.
  unfold processVoiceCommand. rewrite Hr, bind_Some_l.
  destruct (num_gt (score r) 0.6) eqn:Hgt.
  - apply num_gt_true in Hgt.
    unfold best_so_far in Hbest. destruct (command r) as [c|] eqn:Hc.
    + destruct Hbest as (before & after & Hkeys & Hsc & _).
      destruct (get_property_is_Some catalog c) as [f Hf].
      { rewrite Hkeys. apply elem_of_middle. }
      simpl. rewrite Hf. eexists. split; [done|]. split.
      * intros _. exists c, (lev (chars spoken) (chars c)).
        split_and!; [rewrite Hkeys; apply elem_of_middle|
                     apply levenshteinDistance_lev|].
        rewrite <-!length_chars. apply similarity_threshold.
        by rewrite <-Hsc.
      * intros _. exists f. apply elem_of_cons. right.
        apply elem_of_cons. by left.
    + destruct Hbest as [Hsc _]. rewrite Hsc in Hgt. done.
  - apply num_gt_false in Hgt. eexists. split; [done|]. split.
    + intros [f Hf]. apply elem_of_cons in Hf as [Hf|Hf]; [done|].
      by apply elem_of_nil in Hf.
    + intros (phrase & d & Hin & Hd & Hclose). exfalso.
      rewrite levenshteinDistance_lev in Hd. injection Hd as <-.
      rewrite <-!length_chars in Hclose.
      apply similarity_threshold in Hclose.
      apply (Qlt_not_le _ _ Hclose).
      eapply Qle_trans; [by apply Hbound|done].
Qed.

(** ** The theme *)

Lemma truthy_theme (dark : bool) :
  truthy (Some (if dark then "dark" else "light")) = true.
Proof. by destruct dark. Qed.

Lemma applyDarkMode_Some p p1 :
  Theme.applyDarkMode p = Some p1 →
  Theme.isDarkMode p1 = Theme.isDarkMode p ∧
  Theme.localStorage p1 =
    <["theme" := if Theme.isDarkMode p then "dark" else "light"]>
      (Theme.localStorage p) ∧
  Theme.html_classList p1 =
    (if Theme.isDarkMode p then {["dark"]} ∪ Theme.html_classList p
     else Theme.html_classList p ∖ {["dark"]}) ∧
  Theme.html_data_theme p1 =
    Some (if Theme.isDarkMode p then "dark" else "light").
Proof.
  unfold Theme.applyDarkMode, Theme.set_toggle_icon.
  destruct p as [dark ls classes data toggle lucide]; simpl.
  destruct dark, toggle, lucide; simpl; intros [= <-]; done.
Qed.

(** X11: the theme that [applyDarkMode] stores is the one [setupDarkMode]
    restores on a later page with the same storage, whatever the system
    prefers then. *)
Theorem applyDarkMode_reload (p p1 p2 p3 : Theme.page) (prefersDark : bool) :
  Theme.applyDarkMode p = Some p1 →
  Theme.localStorage p2 = Theme.localStorage p1 →
  Theme.setupDarkMode prefersDark p2 = Some p3 →
  Theme.isDarkMode p3 = Theme.isDarkMode p.
Proof.
  intros (_ & Hls & _)%applyDarkMode_Some Hp2 Hsetup.
  unfold Theme.setupDarkMode in Hsetup.
  apply applyDarkMode_Some in Hsetup as (-> & _). simpl.
  rewrite Hp2, Hls, lookup_insert_eq.
  by destruct (Theme.isDarkMode p).
Qed.

Lemma applyDarkMode_reload_witness :
  let p := Theme.Page true ∅ ∅ None None false in
  let p1 := Theme.Page true {["theme" := "dark"]} {["dark"]} (Some "dark")
              None false in
  let p2 := Theme.Page false {["theme" := "dark"]} ∅ None (Some "moon") true in
  let p3 := Theme.Page true {["theme" := "dark"]} {["dark"]} (Some "dark")
              (Some "sun") true in
  Theme.isDarkMode p3 = Theme.isDarkMode p.
Proof.
  intros p p1 p2 p3.
  apply (applyDarkMode_reload p p1 p2 p3 false); by vm_compute.
Defined.

(** X12: toggling twice brings back the mode, and the stored theme, the
    [dark] class and the [data-theme] attribute agree with it. *)
Theorem toggleDarkMode_twice (p p1 p2 : Theme.page) (e1 e2 : list effect) :
  Theme.toggleDarkMode p = Some (p1, e1) →
  Theme.toggleDarkMode p1 = Some (p2, e2) →
  Theme.isDarkMode p2 = Theme.isDarkMode p ∧
  Theme.localStorage p2 !! "theme" =
    Some (if Theme.isDarkMode p then "dark" else "light") ∧
  ("dark" ∈ Theme.html_classList p2 ↔ Theme.isDarkMode p = true) ∧
  Theme.html_data_theme p2 =
    Some (if Theme.isDarkMode p then "dark" else "light").
Proof.
  unfold Theme.toggleDarkMode. intros H1 H2.
  destruct (Theme.applyDarkMode (Theme.set_isDarkMode _ p)) as [q1|] eqn:Hq1;
    [|done].
  injection H1 as -> _.
  destruct (Theme.applyDarkMode (Theme.set_isDarkMode _ p1)) as [q2|] eqn:Hq2;
    [|done].
  injection H2 as -> _.
  apply applyDarkMode_Some in Hq1 as (Hd1 & _). simpl in Hd1.
  apply applyDarkMode_Some in Hq2 as (Hd2 & Hls & Hcl & Hdt). simpl in *.
  rewrite Hd2, Hls, Hcl, Hdt, Hd1, lookup_insert_eq.
  destruct (Theme.isDarkMode p); simpl; split_and!; try done.
  - split; [done|]. intros _. apply elem_of_union. left.
    by apply elem_of_singleton.
  - split; [|done]. intros [_ Hn]%elem_of_difference.
    destruct Hn. by apply elem_of_singleton.
Qed.

Lemma toggleDarkMode_twice_witness :
  let p := Theme.Page false ∅ ∅ None None false in
  let p1 := Theme.Page true {["theme" := "dark"]} {["dark"]} (Some "dark")
              None false in
  let p2 := Theme.Page false {["theme" := "light"]} ∅ (Some "light")
              None false in
  Theme.isDarkMode p2 = Theme.isDarkMode p ∧
  Theme.localStorage p2 !! "theme" =
    Some (if Theme.isDarkMode p then "dark" else "light") ∧
  ("dark" ∈ Theme.html_classList p2 ↔ Theme.isDarkMode p = true) ∧
  Theme.html_data_theme p2 =
    Some (if Theme.isDarkMode p then "dark" else "light").
Proof.
  intros p p1 p2.
  apply (toggleDarkMode_twice p p1 p2
           [showNotification "Switched to dark mode" "info"]
           [showNotification "Switched to light mode" "info"]);
    by vm_compute.
Defined.

(** X13: once [applyDarkMode] has run, a change of the system colour scheme
    changes nothing: the listener finds a stored theme and leaves the page
    as it is. *)
Theorem color_scheme_change_ignored (p p1 : Theme.page) (matches : bool) :
  Theme.applyDarkMode p = Some p1 →
  Theme.on_color_scheme_change matches p1 = Some p1.
Proof.
  intros (_ & Hls & _)%applyDarkMode_Some.
  unfold Theme.on_color_scheme_change.
  by rewrite Hls, lookup_insert_eq, truthy_theme.
Qed.

Lemma color_scheme_change_ignored_witness :
  let p := Theme.Page false ∅ ∅ None (Some "moon") true in
  let p1 := Theme.Page false {["theme" := "light"]} ∅ (Some "light")
              (Some "moon") true in
  Theme.on_color_scheme_change true p1 = Some p1.
Proof.
  intros p p1. apply (color_scheme_change_ignored p p1 true). by vm_compute.
Defined.

(** X14: [generateUserId] keeps the identifier it returns: a later call
    returns the same identifier and leaves the storage as it is, whatever
    the random draw. *)
Theorem generateUserId_stable (r1 r2 : string)
    (localStorage : gmap string string) :
  generateUserId r2 (generateUserId r1 localStorage).2 =
  generateUserId r1 localStorage.
Proof.
  unfold generateUserId.
  destruct (localStorage !! "portfolio-user-id") as [s|] eqn:Hs; simpl.
  - case_bool_decide as Hne; simpl.
    + by rewrite Hs; simpl; rewrite bool_decide_true.
    + by rewrite lookup_insert_eq.
  - by rewrite lookup_insert_eq.
Qed.

(** ** [retryOperation] *)

Lemma retry_trace throws maxRetries fuel retries :
  maxRetries - retries ≤ fuel →
  ∃ trace,
    retry fuel throws maxRetries retries = Some trace ∧
    runs trace ≤ maxRetries - retries ∧
    delays trace = (λ k, 2 ^ k * 1000) <$> seq (S retries) (runs trace) ∧
    (∀ k, retries < k < retries + runs trace → throws k = true) ∧
    (runs trace < maxRetries - retries →
     0 < runs trace ∧ throws (retries + runs trace) = false).
Proof.
  revert retries. induction fuel as [|fuel IH]; intros retries Hfuel; simpl.
  - case_decide; [lia|]. exists []. simpl. split_and!; try done; lia.
  - case_decide as Hlt; [|exists []; simpl; split_and!; try done; lia].
    destruct (throws (S retries)) eqn:Hthrows; simpl.
    + destruct (IH (S retries)) as (rest & -> & Hle & Hdelays & Hall & Hstop);
        [lia|].
      eexists. split; [done|]. simpl. split_and!.
      * lia.
      * by rewrite Hdelays.
      * intros k Hk. destruct (decide (k = S retries)) as [->|]; [done|].
        apply Hall. lia.
      * intros Hn. destruct Hstop as [_ Hstop]; [lia|].
        split; [lia|]. by replace (retries + S (runs rest))
                           with (S retries + runs rest) by lia.
    + eexists. split; [done|]. simpl. split_and!; try done; try lia.
      intros _. split; [lia|]. by rewrite Nat.add_1_r.
Qed.


(** X15: [operation] is called until a call does not throw, and at most
    [maxRetries] times. *)
Theorem retryOperation_attempts (throws : nat → bool) (maxRetries : nat) :
  ∃ trace,
    retryOperation throws maxRetries = Some trace ∧
    runs trace ≤ maxRetries ∧
    (∀ k, 1 ≤ k < runs trace → throws k = true) ∧
    (runs trace < maxRetries →
     1 ≤ runs trace ∧ throws (runs trace) = false).
Proof.
  destruct (retry_trace throws maxRetries maxRetries 0)
    as (trace & Htr & Hle & _ & Hall & Hstop); [lia|].
  exists trace. split_and!; [done|lia|intros k Hk; apply Hall; lia|].
  intros Hn. apply Hstop. lia.
Qed.




(** ** The mobile menu *)

(** X17: on a page that has the menu and its button, [toggleMobileMenu]
    flips whether the menu has the class [hidden], keeps its other classes,
    and sets [aria-expanded] to ["true"] if it was not, to ["false"] if it
    was; so when [aria-expanded] was ["true"] exactly for a visible menu, it
    still is. *)
Theorem toggleMobileMenu_in_sync (p : Menu.page) (classList : gset string)
    (aria_expanded : option string) :
  Menu.mobileMenu p = Some classList →
  Menu.mobileMenuButton p = Some aria_expanded →
  ∃ classList' aria_expanded',
    Menu.mobileMenu (Menu.toggleMobileMenu p).1 = Some classList' ∧
    Menu.mobileMenuButton (Menu.toggleMobileMenu p).1
      = Some (Some aria_expanded') ∧
    ("hidden" ∈ classList' ↔ "hidden" ∉ classList) ∧
    (∀ c, c ≠ "hidden" → (c ∈ classList' ↔ c ∈ classList)) ∧
    aria_expanded' =
      (if bool_decide (aria_expanded = Some "true") then "false"
       else "true") ∧
    ((aria_expanded = Some "true" ↔ "hidden" ∉ classList) →
     (aria_expanded' = "true" ↔ "hidden" ∉ classList')).
Proof.
  intros Hmenu Hbutton. unfold Menu.toggleMobileMenu.
  rewrite Hmenu, Hbutton. simpl. do 2 eexists. split_and!; [done..| | | |].
  - unfold Menu.classList_toggle. case_decide as Hin.
    + rewrite elem_of_difference, elem_of_singleton. intuition congruence.
    + rewrite elem_of_union, elem_of_singleton. intuition congruence.
  - intros c Hc. unfold Menu.classList_toggle. case_decide as Hin.
    + rewrite elem_of_difference, elem_of_singleton. intuition congruence.
    + rewrite elem_of_union, elem_of_singleton. intuition congruence.
  - by case_bool_decide.
  - intros Hsync. unfold Menu.classList_toggle.
    case_bool_decide as Hexp; case_decide as Hin; simpl;
      rewrite ?elem_of_difference, ?elem_of_union, ?elem_of_singleton;
      intuition congruence.
Qed.

Lemma toggleMobileMenu_in_sync_witness :
  let p := Menu.Page (Some {["hidden"]}) (Some (Some "true")) true in
  ∃ classList' aria_expanded',
    Menu.mobileMenu (Menu.toggleMobileMenu p).1 = Some classList' ∧
    Menu.mobileMenuButton (Menu.toggleMobileMenu p).1
      = Some (Some aria_expanded') ∧
    ("hidden" ∈ classList' ↔ "hidden" ∉ ({["hidden"]} : gset string)) ∧
    (∀ c, c ≠ "hidden" →
       (c ∈ classList' ↔ c ∈ ({["hidden"]} : gset string))) ∧
    aria_expanded' =
      (if bool_decide (Some "true" = Some "true") then "false" else "true") ∧
    ((Some "true" = Some "true" ↔ "hidden" ∉ ({["hidden"]} : gset string)) →
     (aria_expanded' = "true" ↔ "hidden" ∉ classList')).
Proof.
  intros p.
  apply (toggleMobileMenu_in_sync p {["hidden"]} (Some "true")); reflexivity.
Defined.

(** X18: on a page that has the menu and its button, the menu is hidden
    after the Escape key, whatever it was before. *)
Theorem escape_hides_menu (event : Menu.keyboard_event) (p : Menu.page)
    (classList : gset string) (aria_expanded : option string) :
  Menu.key event = "Escape" →
  Menu.mobileMenu p = Some classList →
  Menu.mobileMenuButton p = Some aria_expanded →
  ∃ classList',
    Menu.mobileMenu (Menu.handleKeyboardShortcuts event p).1
      = Some classList' ∧
    "hidden" ∈ classList'.
Proof.
  intros Hkey Hmenu Hbutton. unfold Menu.handleKeyboardShortcuts.
  rewrite Hkey, Hmenu. simpl.
  case_bool_decide as Hin; simpl.
  - exists classList. by rewrite Hmenu.
  - unfold Menu.toggleMobileMenu. rewrite Hmenu, Hbutton. simpl.
    eexists. split; [done|]. unfold Menu.classList_toggle.
    case_decide; [done|]. apply elem_of_union. left.
    by apply elem_of_singleton.
Qed.

Lemma escape_hides_menu_witness :
  let event := Menu.KeyboardEvent false false "Escape" "" in
  let p := Menu.Page (Some ∅) (Some (Some "true")) false in
  ∃ classList',
    Menu.mobileMenu (Menu.handleKeyboardShortcuts event p).1
      = Some classList' ∧
    "hidden" ∈ classList'.
Proof.
  intros event p.
  apply (escape_hides_menu event p ∅ (Some "true")); reflexivity.
Defined.

(** ** [throttle] and [debounce] *)





Lemma debounce_run_inv {A} (events : list (Debounce.event A)) c c'
    (calls applied0 applied : list A) :
  (Debounce.pending c = ∅ ∧ applied0 `sublist_of` calls) ∨
  (∃ id a calls',
     Debounce.timeout c = Some id ∧ Debounce.pending c = {[id := a]} ∧
     calls = calls' ++ [a] ∧ applied0 `sublist_of` calls') →
  Debounce.run c events = Some (c', applied) →
  (Debounce.pending c' = ∅ ∧
   applied0 ++ applied `sublist_of` calls ++ Debounce.called events) ∨
  (∃ id a calls',
     Debounce.timeout c' = Some id ∧ Debounce.pending c' = {[id := a]} ∧
     calls ++ Debounce.called events = calls' ++ [a] ∧
     applied0 ++ applied `sublist_of` calls').
Proof.
  revert c calls applied0 applied.
  induction events as [|e events IH]; intros c calls applied0 applied Hinv;
    simpl.
  - intros [= <- <-]. by rewrite !app_nil_r.
  - destruct (Debounce.step c e) as [[c1 a1]|] eqn:Hstep; [|done]. simpl.
    destruct (Debounce.run c1 events) as [[c2 a2]|] eqn:Hrun; [|done]. simpl.
    intros [= <- <-]. destruct e as [args|id]; simpl in Hstep.
    + injection Hstep as <- <-. simpl.
      rewrite (cons_middle args), !(assoc_L (++) calls).
      eapply (IH _ (calls ++ [args]) applied0 a2); [|exact Hrun].
      right. exists (Debounce.next_id c), args, calls. simpl.
      split_and!; [done| |done|].
      * destruct Hinv as [[-> _]|(id & a & calls' & -> & -> & _)]; simpl.
        -- destruct (Debounce.timeout c); simpl; by rewrite ?delete_empty.
        -- by rewrite delete_singleton_eq.
      * destruct Hinv as [[_ Hsub]|(id & a & calls' & _ & _ & -> & Hsub)];
          [done|]. by apply sublist_inserts_r.
    + destruct Hinv as [[Hp _]|(id0 & a & calls' & Hto & Hp & -> & Hsub)];
        rewrite Hp in Hstep.
      { by rewrite lookup_empty in Hstep. }
      destruct (decide (id = id0)) as [->|Hne];
        [|by rewrite lookup_singleton_ne in Hstep].
      rewrite lookup_singleton_eq in Hstep. simpl in Hstep.
      injection Hstep as <- <-.
      rewrite (assoc_L (++) applied0).
      eapply (IH _ _ (applied0 ++ [a]) a2); [|exact Hrun].
      left. simpl. rewrite Hto. simpl.
      rewrite delete_singleton_eq, delete_empty. split; [done|].
      by apply sublist_app.
Qed.

(** X20: a timer of a debounced function that fires applies [func] to the
    arguments of the latest call, and leaves no timer pending. *)
Theorem debounce_applies_latest {A} (events : list (Debounce.event A))
    (c c' : Debounce.closure A) (applied out : list A) (id : nat) :
  Debounce.run Debounce.fresh events = Some (c, applied) →
  Debounce.step c (Debounce.timer_fires id) = Some (c', out) →
  ∃ a, out = [a] ∧ Debounce.last_call events = Some a ∧
       Debounce.pending c' = ∅.
Proof.
  intros Hrun Hstep.
  destruct (debounce_run_inv events Debounce.fresh c [] [] applied)
    as [[Hp _]|(id0 & a & calls' & Hto & Hp & Hcalls & _)];
    [by left|done|..]; simpl in Hstep; rewrite Hp in Hstep.
  - by rewrite lookup_empty in Hstep.
  - destruct (decide (id = id0)) as [->|Hne];
      [|by rewrite lookup_singleton_ne in Hstep].
    rewrite lookup_singleton_eq in Hstep. simpl in Hstep.
    injection Hstep as <- <-. exists a. simpl in *.
    split_and!; [done| |].
    + unfold Debounce.last_call. by rewrite Hcalls, last_snoc.
    + by rewrite Hto; simpl; rewrite delete_singleton_eq, delete_empty.
Qed.

Lemma debounce_applies_latest_witness :
  let events := [Debounce.call 1; Debounce.call 2] in
  ∃ a, [2] = [a] ∧ Debounce.last_call events = Some a ∧
       Debounce.pending (Debounce.Closure (Some 1) (∅ : gmap nat nat) 2) = ∅.
Proof.
  intros events.
  apply (debounce_applies_latest events
           (Debounce.Closure (Some 1) {[1 := 2]} 2)
           (Debounce.Closure (Some 1) ∅ 2) [] [2] 1); by vm_compute.
Defined.

(** X21: a debounced function applies [func] to arguments of its calls, in
    their order and to those of a call at most once. *)
Theorem debounce_applies_calls {A} (events : list (Debounce.event A))
    (c : Debounce.closure A) (applied : list A) :
  Debounce.run Debounce.fresh events = Some (c, applied) →
  applied `sublist_of` Debounce.called events.
Proof.
  intros Hrun.
  destruct (debounce_run_inv events Debounce.fresh c [] [] applied)
    as [[_ Hsub]|(id0 & a & calls' & _ & _ & Hcalls & Hsub)];
    [by left|done|done|].
  simpl in *. rewrite Hcalls. by apply sublist_inserts_r.
Qed.

Lemma debounce_applies_calls_witness :
  let events := [Debounce.call 1; Debounce.call 2; Debounce.timer_fires 1;
                 Debounce.call 3] in
  [2] `sublist_of` Debounce.called events.
Proof.
  intros events.
  apply (debounce_applies_calls events
           (Debounce.Closure (Some 2) {[2 := 3]} 3) [2]).
  by vm_compute.
Defined.

(** ** [updateActiveNavigation] *)

Lemma current_section_last pageYOffset sections current0 :
  let reached (s : Nav.section) :=
    (inject_Z (Nav.offsetTop s - 100) <= pageYOffset)%Q in
  let current :=
    foldl
      (λ current section,
         if Qle_bool (inject_Z (Nav.offsetTop section - 100)) pageYOffset
         then Nav.id section else current)
      current0 sections in
  (current = current0 ∧ ∀ s, s ∈ sections → ¬ reached s) ∨
  (∃ before s after,
     sections = before ++ s :: after ∧ reached s ∧ current = Nav.id s ∧
     ∀ s', s' ∈ after → ¬ reached s').
Proof.
  intros reached. simpl. revert current0.
  induction sections as [|s sections IH] using rev_ind; intros current0.
  - left. split; [done|]. by intros s ?%elem_of_nil.
  - rewrite foldl_app. simpl.
    destruct (Qle_bool _ pageYOffset) eqn:Hle.
    + right. exists sections, s, []. split_and!; [done| |done|].
      * by apply Qle_bool_iff.
      * by intros s' ?%elem_of_nil.
    + assert (¬ reached s) as Hs.
      { unfold reached. rewrite <-Qle_bool_iff. by rewrite Hle. }
      destruct (IH current0) as [[-> Hnone]|(before & s0 & after & -> & ? & -> & Hafter)].
      * left. split; [done|].
        intros s' [?|Hs']%elem_of_app; [by auto|].
        by apply list_elem_of_singleton in Hs' as ->.
      * right. exists before, s0, (after ++ [s]).
        split_and!; [by rewrite <-(assoc_L (++))|done..|].
        intros s' [?|Hs']%elem_of_app; [by auto|].
        by apply list_elem_of_singleton in Hs' as ->.
Qed.

(** X22: after [updateActiveNavigation] a link has the class [active]
    exactly when its [href] is [#] followed by the [id] of the last section,
    in document order, whose top less 100 the scroll position has reached
    (by nothing, when there is none); the links keep their [href] and their
    other classes. *)
Theorem updateActiveNavigation_active (pageYOffset : Q)
    (sections : list Nav.section) (navLinks : list Nav.link) :
  let reached (s : Nav.section) :=
    (inject_Z (Nav.offsetTop s - 100) <= pageYOffset)%Q in
  ∃ current,
    ((current = "" ∧ ∀ s, s ∈ sections → ¬ reached s) ∨
     (∃ before s after,
        sections = before ++ s :: after ∧ reached s ∧ current = Nav.id s ∧
        ∀ s', s' ∈ after → ¬ reached s')) ∧
    ∀ i link,
      navLinks !! i = Some link →
      ∃ link',
        Nav.updateActiveNavigation pageYOffset sections navLinks !! i
          = Some link' ∧
        Nav.href link' = Nav.href link ∧
        ("active" ∈ Nav.classList link' ↔
         Nav.href link = Some ("#" +:+ current)) ∧
        ∀ c, c ≠ "active" →
          (c ∈ Nav.classList link' ↔ c ∈ Nav.classList link).
Proof.
  intros reached.
  exists (Nav.current_section pageYOffset sections). split.
  - apply (current_section_last pageYOffset sections "").
  - intros i link Hi. unfold Nav.updateActiveNavigation.
    rewrite list_lookup_fmap, Hi. simpl. eexists. split; [done|].
    case_bool_decide as Hhref; simpl; split_and!; try done.
    + split; [done|]. intros _. apply elem_of_union. left.
      by apply elem_of_singleton.
    + intros c Hc.
      rewrite elem_of_union, elem_of_difference, elem_of_singleton.
      intuition congruence.
    + split; [|done]. intros [_ Hn]%elem_of_difference.
      destruct Hn. by apply elem_of_singleton.
    + intros c Hc. rewrite elem_of_difference, elem_of_singleton.
      intuition congruence.
Qed.
